(** * SpeechToText: a chainable builder over the host's speech recogniser

    Shallow embedding of [src/lib/classes/SpeechToText.class.js] (with the
    declarations of its [.d.ts] companion) and the properties of its setters,
    accessors, result wrapper and constructor.

    The builder and the recognition engine are JavaScript objects that are
    mutated in place and handed around by reference, so they live in a heap
    indexed by locations.  The engine itself is supplied by the browser: it is
    modelled as an object whose properties are stored as assigned, whose
    [start()] and [stop()] are recorded in a trace, and whose event dispatch
    calls the function found in the slot of the event. *)

From Stdlib Require Import ZArith.
From stdpp Require Import base option list strings gmap fin_maps.

(** ** Values *)

Abbreviation loc := positive.

(** The payload of a result event: an ordered sequence of result groups, each
    an ordered sequence of alternatives with an [isFinal] flag.  Only the
    [transcript] of an alternative is ever read by the source. *)
Record SpeechRecognitionAlternative := { transcript : string }.

Record SpeechRecognitionResult := {
  alternatives : list SpeechRecognitionAlternative;
  isFinal : bool
}.

Inductive Event :=
| SpeechRecognitionEvent (results : list SpeechRecognitionResult)
| SpeechRecognitionErrorEvent (error : string)
| PlainEvent (type : string).

(** Function values are the caller's callbacks (opaque, told apart by an
    identifier), the closure that [setOnResult] builds around a callback, and
    the host's recognition constructor. *)
Inductive Value :=
| VUndefined
| VNull
| VBool (b : bool)
| VNum (n : Z)
| VStr (s : string)
| VEvent (e : Event)
| VFun (f : Func)
with Func :=
| Callback (id : nat)
| OnResultWrapper (callback : Value)
| SpeechRecognitionCtor.

(** ** Heap, trace and the monad of method bodies *)

Inductive Object :=
| SpeechToTextObj (recognition : option loc)
| SpeechRecognitionObj (props : gmap string Value).

(** What the outside world observes: calls of the caller's callbacks with
    their arguments, and the engine operations requested. *)
Inductive Effect :=
| Invoked (id : nat) (args : list Value)
| EngineStart (engine : loc)
| EngineStop (engine : loc).

Record State := { heap : gmap loc Object; trace : list Effect }.

Inductive Exception :=
| TypeError (expr : string)
| Error (message : string).

(** [Wrong] marks a heap that no JavaScript execution produces (a reference
    to nothing, or to an object of the other kind). *)
Inductive Outcome (A : Type) :=
| Normal (a : A)
| Throw (e : Exception)
| Wrong.
Arguments Normal {A} a.
Arguments Throw {A} e.
Arguments Wrong {A}.

Definition M (A : Type) : Type := State -> Outcome A * State.

#[global] Instance M_ret : MRet M := λ A a st, (Normal a, st).

#[global] Instance M_bind : MBind M := λ A B k m st,
  match m st with
  | (Normal a, st') => k a st'
  | (Throw e, st') => (Throw e, st')
  | (Wrong, st') => (Wrong, st')
  end.

Definition throw {A} (e : Exception) : M A := λ st, (Throw e, st).

Definition emit (e : Effect) : M unit := λ st,
  (Normal tt, {| heap := heap st; trace := trace st ++ [e] |}).

Definition alloc (o : Object) : M loc := λ st,
  let l := fresh (dom (heap st)) in
  (Normal l, {| heap := <[l := o]> (heap st); trace := trace st |}).

(** [this.recognition], read. *)
Definition get_recognition (this : loc) : M (option loc) := λ st,
  match heap st !! this with
  | Some (SpeechToTextObj r) => (Normal r, st)
  | _ => (Wrong, st)
  end.

(** [this.recognition = r]. *)
Definition set_recognition (this r : loc) : M unit := λ st,
  match heap st !! this with
  | Some (SpeechToTextObj _) =>
      (Normal tt, {| heap := <[this := SpeechToTextObj (Some r)]> (heap st);
                     trace := trace st |})
  | _ => (Wrong, st)
  end.

(** Modelled from the spec: the recognition engine belongs to the host, not
    to this repository.  Its fields and callback slots are settable
    properties that hold what was assigned to them.

    [recognition.name = v]: throws when [recognition] is undefined. *)
Definition set_prop (recognition : option loc) (name : string) (v : Value)
  : M unit := λ st,
  match recognition with
  | None => (Throw (TypeError ("recognition." +:+ name)), st)
  | Some e =>
      match heap st !! e with
      | Some (SpeechRecognitionObj props) =>
          (Normal tt,
           {| heap := <[e := SpeechRecognitionObj (<[name := v]> props)]> (heap st);
              trace := trace st |})
      | _ => (Wrong, st)
      end
  end.

(** [recognition.name], read: a property never assigned is [undefined]. *)
Definition get_prop (recognition : option loc) (name : string) : M Value := λ st,
  match recognition with
  | None => (Throw (TypeError ("recognition." +:+ name)), st)
  | Some e =>
      match heap st !! e with
      | Some (SpeechRecognitionObj props) =>
          (Normal (default VUndefined (props !! name)), st)
      | _ => (Wrong, st)
      end
  end.

(** Modelled from the spec: the host engine's [start()] and [stop()] take the
    request and report later through events; no value comes back. *)
Definition engine_op (recognition : option loc) (name : string)
    (op : loc -> Effect) : M unit := λ st,
  match recognition with
  | None => (Throw (TypeError ("recognition." +:+ name)), st)
  | Some e =>
      match heap st !! e with
      | Some (SpeechRecognitionObj _) => emit (op e) st
      | _ => (Wrong, st)
      end
  end.

(** ** Calling a function value

    A caller's callback is opaque: its invocation is recorded with the
    arguments it received.  The closure of [setOnResult] runs lines 74-80 of
    the source; reading a property of [undefined] throws. *)
Fixpoint call (f : Value) (args : list Value) : M Value :=
  match f with
  | VFun (Callback id) => _ ← emit (Invoked id args); mret VUndefined
  | VFun (OnResultWrapper callback) =>
      match nth 0 args VUndefined with
      | VUndefined | VNull => throw (TypeError "event.results")
      | VEvent (SpeechRecognitionEvent resultsList) =>
          match resultsList !! 0%nat with
          | None => throw (TypeError "result[0]")
          | Some result =>
              match alternatives result !! 0%nat with
              | None => throw (TypeError "alternative.transcript")
              | Some alternative =>
                  let text := transcript alternative in
                  _ ← call callback [VStr text; VBool (isFinal result)];
                  mret VUndefined
              end
          end
      | _ => throw (TypeError "resultsList[0]")
      end
  | VFun SpeechRecognitionCtor => throw (TypeError "SpeechRecognition()")
  | _ => throw (TypeError "callback()")
  end.

(** Modelled from the spec: the host engine delivering an event.  The
    function held by the slot of the event, if any, is called with the
    arguments of the event; an empty slot drops the event. *)
Definition dispatch (engine : loc) (slot : string) (args : list Value)
  : M unit :=
  handler ← get_prop (Some engine) slot;
  match handler with
  | VFun _ => _ ← call handler args; mret tt
  | _ => mret tt
  end.

(** A run of events of one kind, delivered one after the other. *)
Fixpoint deliver (engine : loc) (slot : string) (events : list Event)
  : M unit :=
  match events with
  | [] => mret tt
  | event :: rest =>
      _ ← dispatch engine slot [VEvent event];
      deliver engine slot rest
  end.

(** ** The host environment and the constructor *)

(** Modelled from the spec: the host environment, which offers the standard
    recognition constructor, the vendor-prefixed one, both or neither, and
    decides what a new engine looks like. *)
Record Host := {
  standard : bool;
  prefixed : bool;
  engine_defaults : gmap string Value
}.

(** The global object: each of the two constructors is either there or not
    defined at all. *)
Definition window (h : Host) : gmap string Value :=
  (if standard h
   then <["SpeechRecognition" := VFun SpeechRecognitionCtor]>
   else id)
  ((if prefixed h
    then <["webkitSpeechRecognition" := VFun SpeechRecognitionCtor]>
    else id) ∅).

Definition truthy (v : Value) : bool :=
  match v with
  | VUndefined | VNull => false
  | VBool b => b
  | VNum n => negb (n =? 0)%Z
  | VStr s => negb (String.eqb s "")
  | VEvent _ | VFun _ => true
  end.

Definition js_or (a b : Value) : Value := if truthy a then a else b.

Definition js_new (h : Host) (c : Value) : M loc :=
  match c with
  | VFun SpeechRecognitionCtor => alloc (SpeechRecognitionObj (engine_defaults h))
  | _ => throw (TypeError "new SpeechRecognition()")
  end.

Definition unsupported : string :=
  "This browser doesn't support the speech recognition, please try using Google Chrome, Microsoft Edge or Safari.".

(** [new SpeechToText()]: the fresh object is [this]; the method closures of
    lines 37-180 capture it as [_this] and are the functions of the next
    section. *)
Definition SpeechToText (h : Host) : M loc :=
  this ← alloc (SpeechToTextObj None);
  let SpeechRecognition :=
    js_or (default VUndefined (window h !! "SpeechRecognition"))
          (default VUndefined (window h !! "webkitSpeechRecognition")) in
  if negb (truthy SpeechRecognition) then throw (Error unsupported)
  else
    r ← js_new h SpeechRecognition;
    _ ← set_recognition this r;
    mret this.

(** ** Methods *)

Definition setInterimResults (_this : loc) (newBool : Value) : M loc :=
  recognition ← get_recognition _this;
  _ ← set_prop recognition "interimResults" newBool;
  mret _this.

Definition setLanguage (_this : loc) (language : Value) : M loc :=
  recognition ← get_recognition _this;
  _ ← set_prop recognition "lang" language;
  mret _this.

Definition setMaxAlternatives (_this : loc) (num : Value) : M loc :=
  recognition ← get_recognition _this;
  _ ← set_prop recognition "maxAlternatives" num;
  mret _this.

Definition setContinuous (_this : loc) (isContinuous : Value) : M loc :=
  recognition ← get_recognition _this;
  _ ← set_prop recognition "continuous" isContinuous;
  mret _this.

Definition setOnResult (_this : loc) (callback : Value) : M loc :=
  recognition ← get_recognition _this;
  _ ← set_prop recognition "onresult" (VFun (OnResultWrapper callback));
  mret _this.

Definition setOnEnd (_this : loc) (callback : Value) : M loc :=
  recognition ← get_recognition _this;
  _ ← set_prop recognition "onend" callback;
  mret _this.

Definition setOnError (_this : loc) (callback : Value) : M loc :=
  recognition ← get_recognition _this;
  _ ← set_prop recognition "onerror" callback;
  mret _this.

Definition setOnStart (_this : loc) (callback : Value) : M loc :=
  recognition ← get_recognition _this;
  _ ← set_prop recognition "onstart" callback;
  mret _this.

Definition setOnAudioStart (_this : loc) (callback : Value) : M loc :=
  recognition ← get_recognition _this;
  _ ← set_prop recognition "onstart" callback;
  mret _this.

Definition setOnSoundStart (_this : loc) (callback : Value) : M loc :=
  recognition ← get_recognition _this;
  _ ← set_prop recognition "onsoundstart" callback;
  mret _this.

Definition setOnSoundEnd (_this : loc) (callback : Value) : M loc :=
  recognition ← get_recognition _this;
  _ ← set_prop recognition "onsoundend" callback;
  mret _this.

Definition setOnSpeechStart (_this : loc) (callback : Value) : M loc :=
  recognition ← get_recognition _this;
  _ ← set_prop recognition "onspeechstart" callback;
  mret _this.

Definition setOnSpeechEnd (_this : loc) (callback : Value) : M loc :=
  recognition ← get_recognition _this;
  _ ← set_prop recognition "onspeechend" callback;
  mret _this.

Definition setOnNoMatch (_this : loc) (callback : Value) : M loc :=
  recognition ← get_recognition _this;
  _ ← set_prop recognition "onnomatch" callback;
  mret _this.

Definition startRecognition (_this : loc) : M loc :=
  recognition ← get_recognition _this;
  _ ← engine_op recognition "start" EngineStart;
  mret _this.

Definition stopRecognition (_this : loc) : M loc :=
  recognition ← get_recognition _this;
  _ ← engine_op recognition "stop" EngineStop;
  mret _this.

(** The two accessors are prototype getters and read through [this]. *)
Definition maxAlternatives (this : loc) : M Value :=
  recognition ← get_recognition this;
  get_prop recognition "maxAlternatives".

Definition continuous (this : loc) : M Value :=
  recognition ← get_recognition this;
  get_prop recognition "continuous".

(** ** Well-formed builders *)

(** [built st b e props]: in [st], [b] is a constructed builder whose
    [recognition] field refers to the engine [e], whose properties are
    [props]. *)
Definition built (st : State) (b e : loc) (props : gmap string Value) : Prop :=
  heap st !! b = Some (SpeechToTextObj (Some e)) ∧
  heap st !! e = Some (SpeechRecognitionObj props).

Definition usable (st : State) (b : loc) : Prop :=
  ∃ e props, built st b e props.

(** The state in which the engine [e] has the properties [props]. *)
Definition with_engine (st : State) (e : loc) (props : gmap string Value)
  : State :=
  {| heap := <[e := SpeechRecognitionObj props]> (heap st); trace := trace st |}.

Definition with_trace (st : State) (t : list Effect) : State :=
  {| heap := heap st; trace := t |}.

(** The shape every setter of a field or of a slot shares. *)
Definition assign (_this : loc) (name : string) (v : Value) : M loc :=
  recognition ← get_recognition _this;
  _ ← set_prop recognition name v;
  mret _this.


(** ** The setters, enumerated *)

Inductive ConfigSetter :=
| InterimResults | Language | MaxAlternatives | Continuous.

Inductive CallbackSetter :=
| OnResult | OnEnd | OnError | OnStart | OnAudioStart
| OnSoundStart | OnSoundEnd | OnSpeechStart | OnSpeechEnd | OnNoMatch.

Inductive Method :=
| Configure (c : ConfigSetter)
| Register (s : CallbackSetter)
| StartRecognition
| StopRecognition.

Definition configure (c : ConfigSetter) : loc → Value → M loc :=
  match c with
  | InterimResults => setInterimResults
  | Language => setLanguage
  | MaxAlternatives => setMaxAlternatives
  | Continuous => setContinuous
  end.

Definition register (s : CallbackSetter) : loc → Value → M loc :=
  match s with
  | OnResult => setOnResult
  | OnEnd => setOnEnd
  | OnError => setOnError
  | OnStart => setOnStart
  | OnAudioStart => setOnAudioStart
  | OnSoundStart => setOnSoundStart
  | OnSoundEnd => setOnSoundEnd
  | OnSpeechStart => setOnSpeechStart
  | OnSpeechEnd => setOnSpeechEnd
  | OnNoMatch => setOnNoMatch
  end.

Definition invoke (m : Method) (_this : loc) (arg : Value) : M loc :=
  match m with
  | Configure c => configure c _this arg
  | Register s => register s _this arg
  | StartRecognition => startRecognition _this
  | StopRecognition => stopRecognition _this
  end.

(** The engine property a setter writes, and the value it writes there. *)
Definition field_of (c : ConfigSetter) : string :=
  match c with
  | InterimResults => "interimResults"
  | Language => "lang"
  | MaxAlternatives => "maxAlternatives"
  | Continuous => "continuous"
  end.

Definition slot_of (s : CallbackSetter) : string :=
  match s with
  | OnResult => "onresult"
  | OnEnd => "onend"
  | OnError => "onerror"
  | OnStart | OnAudioStart => "onstart"
  | OnSoundStart => "onsoundstart"
  | OnSoundEnd => "onsoundend"
  | OnSpeechStart => "onspeechstart"
  | OnSpeechEnd => "onspeechend"
  | OnNoMatch => "onnomatch"
  end.

Definition stored (s : CallbackSetter) (callback : Value) : Value :=
  match s with
  | OnResult => VFun (OnResultWrapper callback)
  | _ => callback
  end.

(** What a result event has to say: the transcript of the first alternative
    of its first result group and the [isFinal] flag of that group. *)
Definition first_alternative (event : Event) : option (list Value) :=
  match event with
  | SpeechRecognitionEvent results =>
      result ← results !! 0%nat;
      alternative ← alternatives result !! 0%nat;
      Some [VStr (transcript alternative); VBool (isFinal result)]
  | _ => None
  end.

(** ** Sample hosts and states *)

Definition empty_state : State := {| heap := ∅; trace := [] |}.

Definition chrome : Host :=
  {| standard := false; prefixed := true;
     engine_defaults :=
       {[ "maxAlternatives" := VNum 1; "continuous" := VBool false ]} |}.

Definition bare : Host :=
  {| standard := false; prefixed := false; engine_defaults := ∅ |}.

Definition chrome_state : State := (SpeechToText chrome empty_state).2.

Definition hello : Event :=
  SpeechRecognitionEvent
    [ {| alternatives := [ {| transcript := "hello" |} ]; isFinal := false |} ].

(** ** Chains of calls *)

(** [b.m1(a1).m2(a2)...]: each call is made on what the call before it
    returned. *)
Fixpoint chain (calls : list (Method * Value)) (_this : loc) : M loc :=
  match calls with
  | [] => mret _this
  | (m, arg) :: rest => next ← invoke m _this arg; chain rest next
  end.

(** The engine property a method assigns, if it assigns one. *)
Definition target (m : Method) : option string :=
  match m with
  | Configure c => Some (field_of c)
  | Register s => Some (slot_of s)
  | StartRecognition | StopRecognition => None
  end.

Definition written (m : Method) (arg : Value) : Value :=
  match m with
  | Register s => stored s arg
  | _ => arg
  end.

Definition write (props : gmap string Value) (call : Method * Value)
  : gmap string Value :=
  match target call.1 with
  | Some name => <[name := written call.1 call.2]> props
  | None => props
  end.

(** The properties of the engine after the assignments of a chain, in the
    order of the chain. *)
Definition writes (calls : list (Method * Value)) (props : gmap string Value)
  : gmap string Value :=
  foldl write props calls.

(** The requests a chain sends to the engine [e]. *)
Definition request (e : loc) (call : Method * Value) : list Effect :=
  match call.1 with
  | StartRecognition => [EngineStart e]
  | StopRecognition => [EngineStop e]
  | _ => []
  end.

Definition requests (e : loc) (calls : list (Method * Value)) : list Effect :=
  flat_map (request e) calls.

(** The value the last call of a chain that assigns [name] leaves there. *)
Fixpoint last_set (name : string) (calls : list (Method * Value))
  : option Value :=
  match calls with
  | [] => None
  | call :: rest =>
      match last_set name rest with
      | Some v => Some v
      | None =>
          if decide (target call.1 = Some name)
          then Some (written call.1 call.2)
          else None
      end
  end.

(** Two methods that do not get in each other's way: they assign different
    properties, or one assigns and the other one starts or stops. *)
Definition independent (m1 m2 : Method) : Prop :=
  match target m1, target m2 with
  | Some n1, Some n2 => n1 ≠ n2
  | None, None => False
  | _, _ => True
  end.

(** The chain of the example in the documentation of the class. *)
Definition documented_chain : list (Method * Value) :=
  [ (Configure Language, VStr "en-US");
    (Configure InterimResults, VBool true);
    (Configure MaxAlternatives, VNum 5);
    (Configure Continuous, VBool true);
    (Register OnResult, VFun (Callback 7));
    (StartRecognition, VUndefined) ].

(** * Properties *)

Ltac unbind := unfold mbind, M_bind, mret, M_ret in *.

Lemma built_distinct st b e props : built st b e props → b ≠ e.
Proof. intros [Hb He] ->. rewrite Hb in He. discriminate. Qed.

Lemma built_with_engine st b e props props' :
  built st b e props → built (with_engine st e props') b e props'.
Proof.
  intros H. pose proof (built_distinct _ _ _ _ H) as Hne.
  destruct H as [Hb He]. split; simpl.
  - rewrite lookup_insert_ne; [done | congruence].
  - apply lookup_insert_eq.
Qed.

Lemma built_with_trace st b e props t :
  built st b e props → built (with_trace st t) b e props.
Proof. intros [Hb He]. by split. Qed.

Lemma with_engine_twice st e p q :
  with_engine (with_engine st e p) e q = with_engine st e q.
Proof. unfold with_engine. simpl. by rewrite insert_insert_eq. Qed.

Lemma with_engine_same st b e props :
  built st b e props → with_engine st e props = st.
Proof.
  intros [_ He]. destruct st as [hp tr]. unfold with_engine. simpl in *.
  by rewrite insert_id.
Qed.

Lemma get_recognition_built st b e props :
  built st b e props → get_recognition b st = (Normal (Some e), st).
Proof. intros [Hb _]. unfold get_recognition. by rewrite Hb. Qed.

Lemma set_prop_built st b e props name v :
  built st b e props →
  set_prop (Some e) name v st = (Normal tt, with_engine st e (<[name := v]> props)).
Proof. intros [_ He]. unfold set_prop. by rewrite He. Qed.

Lemma get_prop_built st b e props name :
  built st b e props →
  get_prop (Some e) name st = (Normal (default VUndefined (props !! name)), st).
Proof. intros [_ He]. unfold get_prop. by rewrite He. Qed.

Lemma engine_op_built st b e props name op :
  built st b e props →
  engine_op (Some e) name op st = (Normal tt, with_trace st (trace st ++ [op e])).
Proof. intros [_ He]. unfold engine_op. by rewrite He. Qed.

Lemma assign_built st b e props name v :
  built st b e props →
  assign b name v st = (Normal b, with_engine st e (<[name := v]> props)).
Proof.
  intros H. unfold assign. unbind.
  rewrite (get_recognition_built _ _ _ _ H).
  by rewrite (set_prop_built _ _ _ _ _ _ H).
Qed.

(** Assignments to different properties can be swapped. *)
Lemma assign_commute st b e props n1 v1 n2 v2 :
  built st b e props → n1 ≠ n2 →
  (_ ← assign b n1 v1; assign b n2 v2) st =
  (_ ← assign b n2 v2; assign b n1 v1) st.
Proof.
  intros H Hne. unbind.
  rewrite !(assign_built _ _ _ _ _ _ H).
  rewrite !(assign_built _ _ _ _ _ _ (built_with_engine _ _ _ _ _ H)).
  rewrite !with_engine_twice. f_equal. f_equal. by apply insert_insert_ne.
Qed.

(** Every configuration setter and every callback setter is an assignment
    to one engine property. *)
Lemma configure_assign c b v : configure c b v = assign b (field_of c) v.
Proof. by destruct c. Qed.

Lemma register_assign s b callback :
  register s b callback = assign b (slot_of s) (stored s callback).
Proof. by destruct s. Qed.

Lemma register_built st b e props s callback :
  built st b e props →
  register s b callback st =
  (Normal b, with_engine st e (<[slot_of s := stored s callback]> props)).
Proof. intros H. rewrite register_assign. by apply assign_built. Qed.

Lemma startRecognition_built st b e props :
  built st b e props →
  startRecognition b st =
  (Normal b, with_trace st (trace st ++ [EngineStart e])).
Proof.
  intros H. unfold startRecognition. unbind.
  rewrite (get_recognition_built _ _ _ _ H).
  by rewrite (engine_op_built _ _ _ _ _ _ H).
Qed.

Lemma stopRecognition_built st b e props :
  built st b e props →
  stopRecognition b st =
  (Normal b, with_trace st (trace st ++ [EngineStop e])).
Proof.
  intros H. unfold stopRecognition. unbind.
  rewrite (get_recognition_built _ _ _ _ H).
  by rewrite (engine_op_built _ _ _ _ _ _ H).
Qed.

(** A method called on an object whose construction failed finds no engine
    and throws. *)
Lemma assign_partial st b name v :
  heap st !! b = Some (SpeechToTextObj None) →
  assign b name v st = (Throw (TypeError ("recognition." +:+ name)), st).
Proof.
  intros Hb. unfold assign, get_recognition. unbind. by rewrite Hb.
Qed.

(** ** Calls and dispatch *)

Lemma call_callback id args st :
  call (VFun (Callback id)) args st =
  (Normal VUndefined, with_trace st (trace st ++ [Invoked id args])).
Proof. reflexivity. Qed.

(** The wrapper on a result event that has a first alternative in its first
    group. *)
Lemma call_wrapper_first id results result alternative rest st :
  results !! 0%nat = Some result →
  alternatives result !! 0%nat = Some alternative →
  call (VFun (OnResultWrapper (VFun (Callback id))))
       (VEvent (SpeechRecognitionEvent results) :: rest) st =
  (Normal VUndefined,
   with_trace st
     (trace st ++
      [Invoked id [VStr (transcript alternative); VBool (isFinal result)]])).
Proof. intros Hr Ha. simpl. by rewrite Hr, Ha. Qed.

(** Whatever it is called with, a handler made from the callback [id] calls
    nothing but [id], at most once, and leaves the heap alone. *)
Lemma call_stored_trace s id args st :
  ∃ calls,
    trace (call (stored s (VFun (Callback id))) args st).2 = trace st ++ calls ∧
    heap (call (stored s (VFun (Callback id))) args st).2 = heap st ∧
    length calls ≤ 1 ∧
    ∀ id' a, Invoked id' a ∈ calls → id' = id.
Proof.
  assert (Hone : ∀ a0, ∃ calls : list Effect,
    trace st ++ [Invoked id a0] = trace st ++ calls ∧ heap st = heap st ∧
    length calls ≤ 1 ∧ ∀ id' a, Invoked id' a ∈ calls → id' = id).
  { intros a0. exists [Invoked id a0]. repeat split; [simpl; lia |].
    intros id' a Hin. apply list_elem_of_singleton in Hin. congruence. }
  assert (Hnone : ∃ calls : list Effect,
    trace st = trace st ++ calls ∧ heap st = heap st ∧
    length calls ≤ 1 ∧ ∀ id' a, Invoked id' a ∈ calls → id' = id).
  { exists []. rewrite app_nil_r. repeat split; [simpl; lia |].
    intros id' a Hin. by apply elem_of_nil in Hin. }
  destruct s; simpl; try apply Hone.
  destruct (nth 0 args VUndefined) as [| | | | |[rs| |]|]; simpl; try apply Hnone.
  destruct (rs !! 0%nat) as [r|]; simpl; [| apply Hnone].
  destruct (alternatives r !! 0%nat) as [a|]; simpl; [| apply Hnone].
  apply Hone.
Qed.

Lemma dispatch_built st b e props slot f args :
  built st b e props →
  props !! slot = Some (VFun f) →
  dispatch e slot args st = (_ ← call (VFun f) args; mret tt) st.
Proof.
  intros H Hslot. unfold dispatch. unbind.
  rewrite (get_prop_built _ _ _ _ _ H), Hslot. reflexivity.
Qed.

Lemma dispatch_empty st b e props slot args :
  built st b e props →
  props !! slot = None →
  dispatch e slot args st = (Normal tt, st).
Proof.
  intros H Hslot. unfold dispatch. unbind.
  rewrite (get_prop_built _ _ _ _ _ H), Hslot. reflexivity.
Qed.

(** ** The result wrapper *)

(** Once the wrapper around [id] sits in the [onresult] slot, a result event
    with a first alternative in its first group calls [id] once. *)
Lemma installed_wrapper_fires st b e props id results result alternative :
  built st b e props →
  props !! "onresult" = Some (VFun (OnResultWrapper (VFun (Callback id)))) →
  results !! 0%nat = Some result →
  alternatives result !! 0%nat = Some alternative →
  dispatch e "onresult" [VEvent (SpeechRecognitionEvent results)] st =
  (Normal tt,
   with_trace st
     (trace st ++
      [Invoked id [VStr (transcript alternative); VBool (isFinal result)]])).
Proof.
  intros H Hslot Hr Ha.
  rewrite (dispatch_built _ _ _ _ _ _ _ H Hslot). unbind.
  by rewrite (call_wrapper_first _ _ _ _ _ _ Hr Ha).
Qed.

(** The same for a whole run of result events: one call per event, in the
    order of the events. *)
Lemma installed_wrapper_stream id events : ∀ st b e props heard,
  built st b e props →
  props !! "onresult" = Some (VFun (OnResultWrapper (VFun (Callback id)))) →
  Forall2 (λ event args, first_alternative event = Some args) events heard →
  deliver e "onresult" events st =
  (Normal tt, with_trace st (trace st ++ (Invoked id <$> heard))).
Proof.
  induction events as [| event rest IH]; intros st b e props heard H Hslot Hall.
  - apply Forall2_nil_inv_l in Hall as ->. simpl. unbind.
    destruct st as [hp tr]. unfold with_trace. simpl. by rewrite app_nil_r.
  - apply Forall2_cons_inv_l in Hall as (args & heard' & Hev & Hrest & ->).
    destruct event as [results | |]; try discriminate.
    unfold first_alternative in Hev.
    destruct (results !! 0%nat) as [result |] eqn:Hr; [| discriminate].
    cbn [mbind option_bind] in Hev.
    destruct (alternatives result !! 0%nat) as [alternative |] eqn:Ha;
      [| discriminate].
    cbn [mbind option_bind] in Hev. injection Hev as <-.
    simpl deliver. unbind.
    rewrite (installed_wrapper_fires _ _ _ _ _ _ _ _ H Hslot Hr Ha).
    rewrite (IH _ b e props heard' (built_with_trace _ _ _ _ _ H) Hslot Hrest).
    unfold with_trace. simpl. by rewrite <- app_assoc.
Qed.

(** A method other than [setOnResult] leaves the [onresult] slot alone. *)
Lemma invoke_keeps_onresult st b e props m arg :
  built st b e props →
  m ≠ Register OnResult →
  ∃ st' props',
    invoke m b arg st = (Normal b, st') ∧
    built st' b e props' ∧
    props' !! "onresult" = props !! "onresult".
Proof.
  intros H Hm. destruct m as [c | s | |]; simpl.
  - rewrite configure_assign. eexists _, _.
    split; [by apply assign_built |].
    split; [exact (built_with_engine _ _ _ _ _ H) |].
    apply lookup_insert_ne. by destruct c.
  - rewrite register_assign. eexists _, _.
    split; [by apply assign_built |].
    split; [exact (built_with_engine _ _ _ _ _ H) |].
    apply lookup_insert_ne. by destruct s.
  - eexists _, props. split; [exact (startRecognition_built _ _ _ _ H) |].
    split; [by apply built_with_trace | done].
  - eexists _, props. split; [exact (stopRecognition_built _ _ _ _ H) |].
    split; [by apply built_with_trace | done].
Qed.

(** C1: after [setOnResult(cb)], a result event delivered to the engine's
    [onresult] slot makes the installed wrapper call [cb] exactly once, with
    the transcript of the first alternative of the first result group and
    that group's [isFinal] flag: the trace grows by that one call. *)
Theorem setOnResult_first_alternative
    st b e props id results result alternative :
  built st b e props →
  results !! 0%nat = Some result →
  alternatives result !! 0%nat = Some alternative →
  (_ ← setOnResult b (VFun (Callback id));
   dispatch e "onresult" [VEvent (SpeechRecognitionEvent results)]) st =
  (Normal tt,
   with_trace
     (with_engine st e
        (<["onresult" := VFun (OnResultWrapper (VFun (Callback id)))]> props))
     (trace st ++
      [Invoked id [VStr (transcript alternative); VBool (isFinal result)]])).
Proof.
  intros H Hr Ha. unbind.
  change (setOnResult b (VFun (Callback id)))
    with (register OnResult b (VFun (Callback id))).
  rewrite (register_built _ _ _ _ OnResult _ H). simpl slot_of. simpl stored.
  erewrite (installed_wrapper_fires _ b e _ id results result alternative);
    [done | exact (built_with_engine _ _ _ _ _ H) | by apply lookup_insert_eq
    | done | done].
Qed.

(** C10: the wrapper indexes [event.results[0]] and then [[0]] of that group
    without a guard.  On a result event with no result group, or whose first
    group has no alternative, the access to the missing element throws and
    the caller's callback is not called: the trace is as it was. *)
Theorem setOnResult_unguarded st b e props callback results :
  built st b e props →
  (results = [] ∨ ∃ result rest, results = result :: rest ∧ alternatives result = []) →
  ∃ expr,
    (_ ← setOnResult b callback;
     dispatch e "onresult" [VEvent (SpeechRecognitionEvent results)]) st =
    (Throw (TypeError expr),
     with_engine st e (<["onresult" := VFun (OnResultWrapper callback)]> props)) ∧
    trace (with_engine st e (<["onresult" := VFun (OnResultWrapper callback)]> props))
    = trace st.
Proof.
  intros H Hshape. unbind.
  change (setOnResult b callback) with (register OnResult b callback).
  rewrite (register_built _ _ _ _ OnResult _ H). simpl slot_of. simpl stored.
  erewrite dispatch_built;
    [| exact (built_with_engine _ _ _ _ _ H) | by apply lookup_insert_eq].
  destruct Hshape as [-> | (result & rest & -> & Hnil)].
  - exists "result[0]"%string. by split.
  - exists "alternative.transcript"%string. unbind. simpl. rewrite Hnil. by split.
Qed.

(** ** Configuration *)

(** C4: a configuration setter followed by the accessor of the same field
    gives back the value that was set, whatever the value: no number, such
    as one below 1, and no boolean is checked or changed on the way. *)
Theorem set_then_read st b e props (n : Z) (c : bool) :
  built st b e props →
  (_ ← setMaxAlternatives b (VNum n); maxAlternatives b) st =
    (Normal (VNum n),
     with_engine st e (<["maxAlternatives" := VNum n]> props)) ∧
  (_ ← setContinuous b (VBool c); continuous b) st =
    (Normal (VBool c),
     with_engine st e (<["continuous" := VBool c]> props)).
Proof.
  intros H. split; unbind.
  - change (setMaxAlternatives b (VNum n)) with (assign b "maxAlternatives" (VNum n)).
    rewrite (assign_built _ _ _ _ _ _ H). unfold maxAlternatives. unbind.
    rewrite (get_recognition_built _ _ _ _ (built_with_engine _ _ _ _ _ H)).
    rewrite (get_prop_built _ _ _ _ _ (built_with_engine _ _ _ _ _ H)).
    by rewrite lookup_insert_eq.
  - change (setContinuous b (VBool c)) with (assign b "continuous" (VBool c)).
    rewrite (assign_built _ _ _ _ _ _ H). unfold continuous. unbind.
    rewrite (get_recognition_built _ _ _ _ (built_with_engine _ _ _ _ _ H)).
    rewrite (get_prop_built _ _ _ _ _ (built_with_engine _ _ _ _ _ H)).
    by rewrite lookup_insert_eq.
Qed.

(** C9: [setLanguage] and [setContinuous] write different fields, so the
    order of the two calls does not matter: both orders end in the same
    state, with both fields set. *)
Theorem setLanguage_setContinuous_commute st b e props (s : string) (c : bool) :
  built st b e props →
  (_ ← setLanguage b (VStr s); setContinuous b (VBool c)) st =
  (_ ← setContinuous b (VBool c); setLanguage b (VStr s)) st ∧
  (_ ← setLanguage b (VStr s); setContinuous b (VBool c)) st =
  (Normal b,
   with_engine st e (<["continuous" := VBool c]> (<["lang" := VStr s]> props))).
Proof.
  intros H. split.
  - by apply (assign_commute _ _ _ _ "lang" _ "continuous" _ H).
  - unbind.
    change (setLanguage b (VStr s)) with (assign b "lang" (VStr s)).
    rewrite (assign_built _ _ _ _ _ _ H).
    change (setContinuous b (VBool c)) with (assign b "continuous" (VBool c)).
    rewrite (assign_built _ _ _ _ _ _ (built_with_engine _ _ _ _ _ H)).
    by rewrite with_engine_twice.
Qed.

(** ** Lifecycle *)

(** C8: [startRecognition] asks the engine to start and [stopRecognition]
    asks it to stop, once per call; nothing else happens (the heap is the
    same, so no state of the builder records the request) and the builder
    itself is returned. *)
Theorem recognition_delegates st b e props :
  built st b e props →
  startRecognition b st =
    (Normal b, with_trace st (trace st ++ [EngineStart e])) ∧
  stopRecognition b st =
    (Normal b, with_trace st (trace st ++ [EngineStop e])).
Proof.
  intros H. split.
  - by apply (startRecognition_built _ _ _ props).
  - by apply (stopRecognition_built _ _ _ props).
Qed.

(** ** Chaining *)

(** C5: each of the sixteen methods, whatever its argument, returns the
    location of the builder it belongs to: the same object, not a copy (no
    object is created and the builder object is left as it was), still a
    builder over the same engine, so the next call of a chain works too. *)
Theorem setters_return_this st b e props m arg :
  built st b e props →
  ∃ st' props',
    invoke m b arg st = (Normal b, st') ∧
    dom (heap st') = dom (heap st) ∧
    heap st' !! b = heap st !! b ∧
    built st' b e props'.
Proof.
  intros H.
  assert (Hassign : ∀ name v, ∃ st' props',
    assign b name v st = (Normal b, st') ∧
    dom (heap st') = dom (heap st) ∧
    heap st' !! b = heap st !! b ∧
    built st' b e props').
  { intros name v. eexists _, _. split; [by apply assign_built |].
    split; [| split].
    - simpl. apply dom_insert_lookup_L. destruct H as [_ ->]. eauto.
    - simpl. apply lookup_insert_ne.
      pose proof (built_distinct _ _ _ _ H). congruence.
    - by apply (built_with_engine _ _ _ props). }
  destruct m as [c | s | |]; simpl.
  - rewrite configure_assign. apply Hassign.
  - rewrite register_assign. apply Hassign.
  - exists (with_trace st (trace st ++ [EngineStart e])), props.
    split; [by apply (startRecognition_built _ _ _ props) |].
    repeat split; try done; apply H.
  - exists (with_trace st (trace st ++ [EngineStop e])), props.
    split; [by apply (stopRecognition_built _ _ _ props) |].
    repeat split; try done; apply H.
Qed.

(** ** Callback slots *)

(** C3: [setOnAudioStart] writes the engine's [onstart] slot, the one
    [setOnStart] writes: the two setters are the same function, and after
    [setOnStart(f)] then [setOnAudioStart(g)] the [onstart] slot holds [g]
    while the [onaudiostart] slot is what it was before. *)
Theorem setOnAudioStart_shares_onstart st b e props f g :
  built st b e props →
  setOnAudioStart b g = setOnStart b g ∧
  (_ ← setOnStart b f; setOnAudioStart b g) st =
    (Normal b, with_engine st e (<["onstart" := g]> props)) ∧
  <["onstart" := g]> props !! "onstart" = Some g ∧
  <["onstart" := g]> props !! "onaudiostart" = props !! "onaudiostart".
Proof.
  intros H. split; [reflexivity |]. split; [| split].
  - unbind.
    change (setOnStart b f) with (register OnStart b f).
    change (setOnAudioStart b g) with (register OnAudioStart b g).
    rewrite (register_built _ _ _ _ OnStart f H).
    rewrite (register_built _ _ _ _ OnAudioStart g
               (built_with_engine _ _ _ _ _ H)).
    simpl. rewrite with_engine_twice. by rewrite insert_insert_eq.
  - apply lookup_insert_eq.
  - by apply lookup_insert_ne.
Qed.

(** C7: a callback setter other than [setOnResult] stores the caller's
    callback itself in the engine slot, and when the engine dispatches to
    that slot the callback is called with exactly the arguments of the
    dispatch: the event object, or nothing. *)
Theorem raw_callbacks_unwrapped st b e props s id args :
  built st b e props →
  s ≠ OnResult →
  register s b (VFun (Callback id)) st =
    (Normal b, with_engine st e (<[slot_of s := VFun (Callback id)]> props)) ∧
  (_ ← register s b (VFun (Callback id)); dispatch e (slot_of s) args) st =
    (Normal tt,
     with_trace
       (with_engine st e (<[slot_of s := VFun (Callback id)]> props))
       (trace st ++ [Invoked id args])).
Proof.
  intros H Hs.
  assert (Hst : stored s (VFun (Callback id)) = VFun (Callback id))
    by by destruct s.
  split.
  - rewrite (register_built _ _ _ _ s _ H). by rewrite Hst.
  - unbind. rewrite (register_built _ _ _ _ s _ H), Hst.
    erewrite dispatch_built;
      [| exact (built_with_engine _ _ _ _ _ H) | by apply lookup_insert_eq].
    reflexivity.
Qed.

(** C6: registering [f] and then [g] through setters of the same slot leaves
    the state that registering [g] alone leaves: one handler, the one made
    from [g].  The next event of that slot runs that handler and nothing
    else, so at most one callback call is made and it is a call of [g]. *)
Theorem last_registration_wins st b e props s1 s2 f g args :
  built st b e props →
  slot_of s1 = slot_of s2 →
  (_ ← register s1 b (VFun (Callback f)); register s2 b (VFun (Callback g))) st =
    register s2 b (VFun (Callback g)) st ∧
  register s2 b (VFun (Callback g)) st =
    (Normal b,
     with_engine st e (<[slot_of s2 := stored s2 (VFun (Callback g))]> props)) ∧
  (_ ← register s1 b (VFun (Callback f));
   _ ← register s2 b (VFun (Callback g));
   dispatch e (slot_of s2) args) st =
    (_ ← register s2 b (VFun (Callback g));
     _ ← call (stored s2 (VFun (Callback g))) args;
     mret tt) st ∧
  ∃ calls,
    trace ((_ ← register s1 b (VFun (Callback f));
            _ ← register s2 b (VFun (Callback g));
            dispatch e (slot_of s2) args) st).2 = trace st ++ calls ∧
    length calls ≤ 1 ∧
    ∀ id a, Invoked id a ∈ calls → id = g.
Proof.
  intros H Hslot.
  pose proof (register_built _ _ _ _ s2 (VFun (Callback g)) H) as H2.
  assert (H12 :
    (_ ← register s1 b (VFun (Callback f)); register s2 b (VFun (Callback g))) st =
    register s2 b (VFun (Callback g)) st).
  { unbind. rewrite (register_built _ _ _ _ s1 _ H).
    rewrite (register_built _ _ _ _ s2 _ (built_with_engine _ _ _ _ _ H)).
    rewrite H2, with_engine_twice, Hslot. by rewrite insert_insert_eq. }
  assert (Hfun : ∃ h, stored s2 (VFun (Callback g)) = VFun h)
    by (destruct s2; eauto).
  destruct Hfun as [h Hh].
  assert (H3 :
    (_ ← register s1 b (VFun (Callback f));
     _ ← register s2 b (VFun (Callback g));
     dispatch e (slot_of s2) args) st =
    (_ ← register s2 b (VFun (Callback g));
     _ ← call (stored s2 (VFun (Callback g))) args;
     mret tt) st).
  { unbind.
    rewrite (register_built _ _ _ _ s1 _ H).
    rewrite (register_built _ _ _ _ s2 _ (built_with_engine _ _ _ _ _ H)).
    rewrite H2, with_engine_twice, Hslot, insert_insert_eq.
    erewrite dispatch_built;
      [| exact (built_with_engine _ _ _ _ _ H)
       | rewrite Hh; by apply lookup_insert_eq].
    rewrite Hh. reflexivity. }
  split; [exact H12 |]. split; [exact H2 |]. split; [exact H3 |].
  rewrite H3. unbind. rewrite H2.
  destruct (call_stored_trace s2 g args
              (with_engine st e
                 (<[slot_of s2 := stored s2 (VFun (Callback g))]> props)))
    as (calls & Htr & _ & Hlen & Honly).
  exists calls. split; [| by split].
  destruct (call (stored s2 (VFun (Callback g))) args _) as [[v | ex |] st'];
    exact Htr.
Qed.

(** ** Construction *)

Lemma window_constructor h :
  js_or (default VUndefined (window h !! "SpeechRecognition"))
        (default VUndefined (window h !! "webkitSpeechRecognition")) =
  if standard h || prefixed h then VFun SpeechRecognitionCtor else VUndefined.
Proof. destruct h as [[] [] d]; reflexivity. Qed.

Lemma fresh_unused (st : State) :
  heap st !! fresh (dom (heap st)) = None.
Proof. apply not_elem_of_dom, is_fresh. Qed.

(** C2: in a host with neither [SpeechRecognition] nor
    [webkitSpeechRecognition], [new SpeechToText()] throws the error that
    points to a supporting browser; no reference is returned, the object
    that was being initialised has no engine, and every other object is
    untouched.  In a host with either of them it returns a new builder that
    holds a new engine. *)
Theorem SpeechToText_capability h st :
  let this := fresh (dom (heap st)) in
  let partial :=
    {| heap := <[this := SpeechToTextObj None]> (heap st); trace := trace st |} in
  (standard h = false ∧ prefixed h = false →
     SpeechToText h st = (Throw (Error unsupported), partial) ∧
     ¬ usable partial this ∧
     ∀ l, usable partial l → usable st l) ∧
  (standard h = true ∨ prefixed h = true →
     ∃ r st',
       SpeechToText h st = (Normal this, st') ∧
       built st' this r (engine_defaults h) ∧
       heap st !! this = None ∧ heap st !! r = None ∧
       trace st' = trace st ∧
       ∀ l o, heap st !! l = Some o → heap st' !! l = Some o).
Proof.
  intros this partial.
  assert (Hthis : heap st !! this = None) by apply fresh_unused.
  split.
  - intros [Hs Hp]. split; [| split].
    + unfold SpeechToText. unbind. unfold alloc at 1. cbv zeta.
      by rewrite window_constructor, Hs, Hp.
    + intros (e & props & Hb & _). simpl in Hb. unfold this in Hb.
      rewrite lookup_insert_eq in Hb. discriminate.
    + intros l (e & props & Hb & He). simpl in Hb, He.
      exists e, props. split.
      * destruct (decide (this = l)) as [<- | Hne].
        -- rewrite lookup_insert_eq in Hb. discriminate.
        -- by rewrite lookup_insert_ne in Hb.
      * destruct (decide (this = e)) as [<- | Hne].
        -- rewrite lookup_insert_eq in He. discriminate.
        -- by rewrite lookup_insert_ne in He.
  - intros Hcap.
    assert (Hor : standard h || prefixed h = true).
    { destruct Hcap as [-> | ->]; [done | by rewrite orb_true_r]. }
    set (r := fresh (dom (heap partial))).
    assert (Hr : heap partial !! r = None) by apply fresh_unused.
    assert (Hne : this ≠ r).
    { intros Heq. rewrite <- Heq in Hr. simpl in Hr.
      rewrite lookup_insert_eq in Hr. discriminate. }
    assert (Hr0 : heap st !! r = None).
    { simpl in Hr. by rewrite lookup_insert_ne in Hr. }
    exists r,
      {| heap := <[this := SpeechToTextObj (Some r)]>
                   (<[r := SpeechRecognitionObj (engine_defaults h)]> (heap partial));
         trace := trace st |}.
    split; [| split; [| split; [| split; [| split]]]]; try done.
    + unfold SpeechToText. unbind. unfold alloc at 1. cbv zeta.
      rewrite window_constructor, Hor.
      change (negb (truthy (VFun SpeechRecognitionCtor))) with false.
      unfold js_new, alloc, set_recognition. cbv beta iota zeta.
      simpl heap. simpl trace.
      rewrite lookup_insert_ne by exact (not_eq_sym Hne).
      by rewrite lookup_insert_eq.
    + split; simpl.
      * apply lookup_insert_eq.
      * rewrite lookup_insert_ne by done. apply lookup_insert_eq.
    + intros l o Hl. simpl.
      rewrite !lookup_insert_ne; [done | congruence | congruence | congruence].
Qed.

(** * The properties at work

    A builder made in a host that only has the prefixed constructor: the
    builder is object 1 and its engine object 2. *)

Ltac chrome_built := split; vm_compute; reflexivity.

Lemma setOnResult_first_alternative_hello :
  built chrome_state 1 2 (engine_defaults chrome) ∧
  trace ((_ ← setOnResult 1 (VFun (Callback 7));
          dispatch 2 "onresult" [VEvent hello]) chrome_state).2 =
  [Invoked 7 [VStr "hello"; VBool false]].
Proof.
  split; [chrome_built |].
  unfold hello.
  rewrite (setOnResult_first_alternative chrome_state 1 2
             (engine_defaults chrome) 7 _
             {| alternatives := [ {| transcript := "hello" |} ]; isFinal := false |}
             {| transcript := "hello" |});
    [reflexivity | chrome_built | reflexivity | reflexivity].
Defined.

Lemma setOnResult_unguarded_empty :
  built chrome_state 1 2 (engine_defaults chrome) ∧
  ∃ expr,
    ((_ ← setOnResult 1 (VFun (Callback 7));
      dispatch 2 "onresult" [VEvent (SpeechRecognitionEvent [])]) chrome_state).1 =
    Throw (TypeError expr).
Proof.
  split; [chrome_built |].
  destruct (setOnResult_unguarded chrome_state 1 2 (engine_defaults chrome)
              (VFun (Callback 7)) []) as (expr & Heq & _);
    [chrome_built | by left |].
  exists expr. by rewrite Heq.
Defined.

Lemma set_then_read_zero :
  built chrome_state 1 2 (engine_defaults chrome) ∧
  ((_ ← setMaxAlternatives 1 (VNum 0); maxAlternatives 1) chrome_state).1 =
    Normal (VNum 0) ∧
  ((_ ← setContinuous 1 (VBool true); continuous 1) chrome_state).1 =
    Normal (VBool true).
Proof.
  split; [chrome_built |].
  destruct (set_then_read chrome_state 1 2 (engine_defaults chrome) 0 true)
    as [-> ->]; [chrome_built |].
  by split.
Defined.

Lemma setLanguage_setContinuous_commute_en :
  built chrome_state 1 2 (engine_defaults chrome) ∧
  (_ ← setLanguage 1 (VStr "en-US"); setContinuous 1 (VBool true)) chrome_state =
  (_ ← setContinuous 1 (VBool true); setLanguage 1 (VStr "en-US")) chrome_state.
Proof.
  split; [chrome_built |].
  apply (setLanguage_setContinuous_commute chrome_state 1 2
           (engine_defaults chrome) "en-US" true).
  chrome_built.
Defined.

Lemma recognition_delegates_twice :
  built chrome_state 1 2 (engine_defaults chrome) ∧
  (startRecognition 1 chrome_state).1 = Normal 1%positive ∧
  trace (startRecognition 1 chrome_state).2 = [EngineStart 2].
Proof.
  split; [chrome_built |].
  destruct (recognition_delegates chrome_state 1 2 (engine_defaults chrome))
    as [-> _]; [chrome_built |].
  by split.
Defined.

Lemma setters_return_this_language :
  built chrome_state 1 2 (engine_defaults chrome) ∧
  ∃ st', invoke (Configure Language) 1 (VStr "en-US") chrome_state =
         (Normal 1%positive, st').
Proof.
  split; [chrome_built |].
  destruct (setters_return_this chrome_state 1 2 (engine_defaults chrome)
              (Configure Language) (VStr "en-US"))
    as (st' & props' & Heq & _); [chrome_built |].
  by exists st'.
Defined.

Lemma setOnAudioStart_shares_onstart_example :
  built chrome_state 1 2 (engine_defaults chrome) ∧
  ((_ ← setOnStart 1 (VFun (Callback 3));
    setOnAudioStart 1 (VFun (Callback 4))) chrome_state).1 = Normal 1%positive.
Proof.
  split; [chrome_built |].
  destruct (setOnAudioStart_shares_onstart chrome_state 1 2
              (engine_defaults chrome) (VFun (Callback 3)) (VFun (Callback 4)))
    as (_ & -> & _); [chrome_built |].
  reflexivity.
Defined.

Lemma raw_callbacks_unwrapped_onerror :
  built chrome_state 1 2 (engine_defaults chrome) ∧
  OnError ≠ OnResult ∧
  trace ((_ ← register OnError 1 (VFun (Callback 5));
          dispatch 2 "onerror"
            [VEvent (SpeechRecognitionErrorEvent "no-speech")]) chrome_state).2 =
  [Invoked 5 [VEvent (SpeechRecognitionErrorEvent "no-speech")]].
Proof.
  split; [chrome_built |]. split; [discriminate |].
  destruct (raw_callbacks_unwrapped chrome_state 1 2 (engine_defaults chrome)
              OnError 5 [VEvent (SpeechRecognitionErrorEvent "no-speech")])
    as [_ Heq]; [chrome_built | discriminate |].
  simpl slot_of in Heq. rewrite Heq. reflexivity.
Defined.

Lemma last_registration_wins_start :
  built chrome_state 1 2 (engine_defaults chrome) ∧
  slot_of OnStart = slot_of OnAudioStart ∧
  (_ ← register OnStart 1 (VFun (Callback 3));
   register OnAudioStart 1 (VFun (Callback 4))) chrome_state =
  register OnAudioStart 1 (VFun (Callback 4)) chrome_state.
Proof.
  split; [chrome_built |]. split; [reflexivity |].
  apply (last_registration_wins chrome_state 1 2 (engine_defaults chrome)
           OnStart OnAudioStart 3 4 []);
    [chrome_built | reflexivity].
Defined.

Lemma SpeechToText_capability_hosts :
  (standard bare = false ∧ prefixed bare = false) ∧
  (SpeechToText bare empty_state).1 = Throw (Error unsupported) ∧
  (standard chrome = true ∨ prefixed chrome = true) ∧
  (SpeechToText chrome empty_state).1 = Normal 1%positive.
Proof.
  split; [by split |]. split.
  - destruct (SpeechToText_capability bare empty_state) as [Hno _].
    destruct (Hno (conj eq_refl eq_refl)) as [-> _]. reflexivity.
  - split; [by right |].
    destruct (SpeechToText_capability chrome empty_state) as [_ Hyes].
    destruct (Hyes (or_intror eq_refl)) as (r & st' & -> & _). reflexivity.
Defined.

(** * Chains, frames and several builders *)

Lemma with_trace_same st : with_trace st (trace st ++ []) = st.
Proof. destruct st as [hp tr]. unfold with_trace. simpl. by rewrite app_nil_r. Qed.

(** The whole effect of one method on a constructed builder. *)
Lemma invoke_built st b e props m arg :
  built st b e props →
  invoke m b arg st =
  (Normal b,
   with_trace (with_engine st e (write props (m, arg)))
     (trace st ++ request e (m, arg))).
Proof.
  intros H. destruct m as [c | s | |]; simpl.
  - rewrite configure_assign, (assign_built _ _ _ _ _ _ H).
    unfold write, request, with_trace, with_engine. simpl.
    by rewrite app_nil_r.
  - rewrite register_assign, (assign_built _ _ _ _ _ _ H).
    unfold write, request, with_trace, with_engine. simpl.
    by rewrite app_nil_r.
  - rewrite (startRecognition_built _ _ _ _ H).
    unfold write, request. simpl. by rewrite (with_engine_same _ _ _ _ H).
  - rewrite (stopRecognition_built _ _ _ _ H).
    unfold write, request. simpl. by rewrite (with_engine_same _ _ _ _ H).
Qed.

(** The whole effect of a chain, by induction on the chain. *)
Lemma chain_built calls : ∀ st b e props,
  built st b e props →
  chain calls b st =
  (Normal b,
   with_trace (with_engine st e (writes calls props))
     (trace st ++ requests e calls)).
Proof.
  induction calls as [| [m arg] rest IH]; intros st b e props H.
  - simpl. unfold writes, requests. simpl.
    by rewrite (with_engine_same _ _ _ _ H), with_trace_same.
  - simpl chain. unbind. rewrite (invoke_built _ _ _ _ _ _ H).
    erewrite IH;
      [| apply built_with_trace; exact (built_with_engine _ _ _ _ _ H)].
    unfold with_trace, with_engine, writes, requests. simpl.
    by rewrite insert_insert_eq, <- app_assoc.
Qed.

Lemma writes_lookup name calls : ∀ props,
  writes calls props !! name =
  match last_set name calls with
  | Some v => Some v
  | None => props !! name
  end.
Proof.
  induction calls as [| [m arg] rest IH]; intros props; [done |].
  unfold writes in *. simpl. rewrite IH.
  destruct (last_set name rest) as [v |]; [done |].
  unfold write. simpl.
  destruct (decide (target m = Some name)) as [Heq | Hne].
  - rewrite Heq. apply lookup_insert_eq.
  - destruct (target m) as [n |]; [| done].
    apply lookup_insert_ne. congruence.
Qed.

Lemma requests_no_call e calls id args : Invoked id args ∉ requests e calls.
Proof.
  unfold requests. intros Hin.
  apply list_elem_of_In, in_flat_map in Hin as ([m arg] & _ & Hin).
  unfold request in Hin. simpl in Hin.
  destruct m; simpl in Hin; intuition discriminate.
Qed.

(** X1: a chain of method calls of any length, with any arguments, never
    throws and ends on the builder it started from.  It leaves the engine
    with the assignments of the chain made in order, it sends the engine
    one start or stop request per [startRecognition] or [stopRecognition],
    in order, and it calls no callback. *)
Theorem chain_effect st b e props calls :
  built st b e props →
  chain calls b st =
    (Normal b,
     with_trace (with_engine st e (writes calls props))
       (trace st ++ requests e calls)) ∧
  built (chain calls b st).2 b e (writes calls props) ∧
  ∀ id args, Invoked id args ∉ requests e calls.
Proof.
  intros H. rewrite (chain_built _ _ _ _ _ H). split; [done |]. split.
  - apply built_with_trace. exact (built_with_engine _ _ _ _ _ H).
  - intros id args. apply requests_no_call.
Qed.

(** X2: the accessors read the engine as it is now: after any chain,
    [maxAlternatives] and [continuous] give the argument of the last call
    of the chain that set the field, and what the engine had before when the
    chain never set it.  Reading changes nothing. *)
Theorem accessors_after_chain st b e props calls :
  built st b e props →
  (_ ← chain calls b; maxAlternatives b) st =
    (Normal (default (default VUndefined (props !! "maxAlternatives"))
                     (last_set "maxAlternatives" calls)),
     (chain calls b st).2) ∧
  (_ ← chain calls b; continuous b) st =
    (Normal (default (default VUndefined (props !! "continuous"))
                     (last_set "continuous" calls)),
     (chain calls b st).2).
Proof.
  intros H.
  assert (H' : built (with_trace (with_engine st e (writes calls props))
                        (trace st ++ requests e calls)) b e (writes calls props)).
  { apply built_with_trace. exact (built_with_engine _ _ _ _ _ H). }
  split; unbind; rewrite (chain_built _ _ _ _ _ H); simpl.
  - unfold maxAlternatives. unbind.
    rewrite (get_recognition_built _ _ _ _ H'), (get_prop_built _ _ _ _ _ H').
    rewrite writes_lookup. by destruct (last_set _ calls).
  - unfold continuous. unbind.
    rewrite (get_recognition_built _ _ _ _ H'), (get_prop_built _ _ _ _ _ H').
    rewrite writes_lookup. by destruct (last_set _ calls).
Qed.

(** X3: two calls that assign different engine properties, or of which one
    assigns and the other starts or stops, can be made in either order: the
    two chains end in the same state. *)
Theorem independent_calls_commute st b e props m1 a1 m2 a2 :
  built st b e props →
  independent m1 m2 →
  chain [(m1, a1); (m2, a2)] b st = chain [(m2, a2); (m1, a1)] b st.
Proof.
  intros H Hind. rewrite !(chain_built _ _ _ _ _ H).
  unfold writes, requests, write, request, independent in *. simpl.
  destruct (target m1) as [n1 |] eqn:H1, (target m2) as [n2 |] eqn:H2;
    try done.
  - assert (request1 : ∀ m, is_Some (target m) →
      match m with
      | StartRecognition => [EngineStart e]
      | StopRecognition => [EngineStop e]
      | _ => []
      end = []) by (intros [] [? ?]; done).
    rewrite !request1 by eauto. by rewrite insert_insert_ne.
  - destruct m1; try done; destruct m2; done.
  - destruct m2; try done; destruct m1; done.
Qed.

(** X4: a call that assigns the property an earlier call assigned erases
    that call: the two calls leave the state the later one leaves alone,
    whatever the two values. *)
Theorem later_call_overwrites st b e props m1 a1 m2 a2 name :
  built st b e props →
  target m1 = Some name →
  target m2 = Some name →
  chain [(m1, a1); (m2, a2)] b st = chain [(m2, a2)] b st.
Proof.
  intros H H1 H2. rewrite !(chain_built _ _ _ _ _ H).
  unfold writes, requests, write, request. simpl. rewrite H1, H2.
  rewrite insert_insert_eq.
  by destruct m1; try done; destruct m2.
Qed.

(** ** Events a chain does not reach *)

(** A call adds its events to the trace and touches nothing else; what it
    adds depends on the function and the arguments only. *)
Lemma call_pure : ∀ f args, ∃ o evs, ∀ st,
  call f args st = (o, with_trace st (trace st ++ evs)).
Proof.
  assert (Hthrow : ∀ x, ∃ (o : Outcome Value) (evs : list Effect), ∀ st,
    @throw Value (TypeError x) st = (o, with_trace st (trace st ++ evs))).
  { intros x. exists (Throw (TypeError x)), []. intros st.
    by rewrite with_trace_same. }
  fix IH 1.
  intros [ | | b | n | s | ev | [id | callback |]] args; simpl;
    try apply Hthrow.
  - exists (Normal VUndefined), [Invoked id args]. reflexivity.
  - destruct (nth 0 args VUndefined) as [ | | | | | [rs | |] | ];
      try apply Hthrow.
    destruct (rs !! 0%nat) as [r |]; [| apply Hthrow].
    destruct (alternatives r !! 0%nat) as [a |]; [| apply Hthrow].
    destruct (IH callback [VStr (transcript a); VBool (isFinal r)])
      as (o & evs & Hcall).
    exists (match o with
            | Normal _ => Normal VUndefined
            | Throw ex => Throw ex
            | Wrong => Wrong
            end), evs.
    intros st. unbind. rewrite Hcall. by destruct o.
Qed.

(** A dispatch is decided by what the slot holds. *)
Lemma dispatch_pure slot args (handler : option Value) : ∃ o evs,
  ∀ st b e props,
    built st b e props → props !! slot = handler →
    dispatch e slot args st = (o, with_trace st (trace st ++ evs)).
Proof.
  assert (Hdrop : ∀ v : option Value, (∀ f, v ≠ Some (VFun f)) →
    ∃ (o : Outcome unit) (evs : list Effect), ∀ st b e props,
      built st b e props → props !! slot = v →
      dispatch e slot args st = (o, with_trace st (trace st ++ evs))).
  { intros v Hv. exists (Normal tt), []. intros st b e props H Hslot.
    unfold dispatch. unbind.
    rewrite (get_prop_built _ _ _ _ _ H), Hslot, with_trace_same.
    destruct v as [[ | | ? | ? | ? | ? | f] |]; try done.
    by destruct (Hv f). }
  destruct handler as [[ | | ? | ? | ? | ? | f] |]; try by apply Hdrop.
  destruct (call_pure (VFun f) args) as (o & evs & Hcall).
  exists (match o with
          | Normal _ => Normal tt
          | Throw ex => Throw ex
          | Wrong => Wrong
          end), evs.
  intros st b e props H Hslot.
  rewrite (dispatch_built _ _ _ _ _ _ _ H Hslot). unbind.
  rewrite Hcall. by destruct o.
Qed.

(** No method assigns the [onaudiostart] slot. *)
Lemma last_set_onaudiostart calls : last_set "onaudiostart" calls = None.
Proof.
  induction calls as [| [m arg] rest IH]; [done |].
  simpl. rewrite IH.
  destruct (decide (target m = Some "onaudiostart")) as [Heq | Hne]; [| done].
  by destruct m as [[] | [] | |].
Qed.

(** X5: what a chain does not assign it does not disturb: an event of a
    slot that no call of the chain assigns is handled after the chain as it
    would have been before, with the same outcome and the same calls. *)
Theorem chain_keeps_other_slots st b e props calls slot args :
  built st b e props →
  last_set slot calls = None →
  ∃ o evs,
    dispatch e slot args st = (o, with_trace st (trace st ++ evs)) ∧
    dispatch e slot args (chain calls b st).2 =
      (o, with_trace (chain calls b st).2
            (trace (chain calls b st).2 ++ evs)).
Proof.
  intros H Hlast.
  destruct (dispatch_pure slot args (props !! slot)) as (o & evs & Hd).
  exists o, evs. split; [by apply (Hd st b e props) |].
  rewrite (chain_built _ _ _ _ _ H). cbn [snd].
  apply (Hd _ b e (writes calls props)).
  - apply built_with_trace. exact (built_with_engine _ _ _ _ _ H).
  - by rewrite writes_lookup, Hlast.
Qed.

(** X6: the engine's audio-start event reaches no callback of the caller:
    whatever is registered, [setOnAudioStart] included, an [onaudiostart]
    slot that was empty is still empty and the event is dropped. *)
Theorem audiostart_event_dropped st b e props calls args :
  built st b e props →
  props !! "onaudiostart" = None →
  (_ ← chain calls b; dispatch e "onaudiostart" args) st =
  (Normal tt, (chain calls b st).2).
Proof.
  intros H Hnone. unbind. rewrite (chain_built _ _ _ _ _ H). simpl.
  eapply dispatch_empty.
  - apply built_with_trace. exact (built_with_engine _ _ _ _ _ H).
  - by rewrite writes_lookup, last_set_onaudiostart.
Qed.

(** ** More about the result wrapper *)

(** X7: the wrapper looks at the first result group and at its first
    alternative only: further groups, further alternatives and further
    arguments change nothing, so an event behaves as the event made of that
    one alternative. *)
Theorem wrapper_reads_first_only
    st b e props id result rest alternative others more :
  built st b e props →
  alternatives result = alternative :: others →
  (_ ← setOnResult b (VFun (Callback id));
   dispatch e "onresult"
     (VEvent (SpeechRecognitionEvent (result :: rest)) :: more)) st =
  (_ ← setOnResult b (VFun (Callback id));
   dispatch e "onresult"
     [VEvent (SpeechRecognitionEvent
        [ {| alternatives := [alternative]; isFinal := isFinal result |} ])]) st.
Proof.
  intros H Halt. unbind.
  change (setOnResult b (VFun (Callback id)))
    with (register OnResult b (VFun (Callback id))).
  rewrite (register_built _ _ _ _ OnResult _ H). simpl slot_of. simpl stored.
  erewrite !dispatch_built;
    try exact (built_with_engine _ _ _ _ _ H); try by apply lookup_insert_eq.
  unbind.
  rewrite (call_wrapper_first id (result :: rest) result alternative more);
    [| done | by rewrite Halt].
  by rewrite (call_wrapper_first id _
                {| alternatives := [alternative]; isFinal := isFinal result |}
                alternative []).
Qed.

(** X8: when the first argument of the dispatch is not a result event (no
    argument, null, or an event of another kind), the wrapper throws a
    TypeError and the callback, whatever it is, is not called. *)
Theorem wrapper_needs_result_event st b e props callback args :
  built st b e props →
  (∀ results, nth 0 args VUndefined ≠ VEvent (SpeechRecognitionEvent results)) →
  ∃ expr,
    (_ ← setOnResult b callback; dispatch e "onresult" args) st =
    (Throw (TypeError expr),
     with_engine st e (<["onresult" := VFun (OnResultWrapper callback)]> props)) ∧
    trace (with_engine st e
             (<["onresult" := VFun (OnResultWrapper callback)]> props)) = trace st.
Proof.
  intros H Hnot. unbind.
  change (setOnResult b callback) with (register OnResult b callback).
  rewrite (register_built _ _ _ _ OnResult _ H). simpl slot_of. simpl stored.
  erewrite dispatch_built;
    [| exact (built_with_engine _ _ _ _ _ H) | by apply lookup_insert_eq].
  unbind. simpl call.
  destruct (nth 0 args VUndefined) as [ | | ? | ? | ? | [rs | ? | ?] | ?];
    try (eexists; split; reflexivity).
  by destruct (Hnot rs).
Qed.

(** X9: no setter checks that its argument is a function.  [setOnResult]
    wraps it all the same, so the slot holds a function and the next result
    event throws at the call of the callback; another setter stores the
    argument as it is, the slot holds no function and the event is
    dropped. *)
Theorem callbacks_are_not_checked
    st b e props callback s args results result alternative :
  built st b e props →
  (∀ f, callback ≠ VFun f) →
  results !! 0%nat = Some result →
  alternatives result !! 0%nat = Some alternative →
  s ≠ OnResult →
  (_ ← setOnResult b callback;
   dispatch e "onresult" [VEvent (SpeechRecognitionEvent results)]) st =
    (Throw (TypeError "callback()"),
     with_engine st e (<["onresult" := VFun (OnResultWrapper callback)]> props)) ∧
  (_ ← register s b callback; dispatch e (slot_of s) args) st =
    (Normal tt, with_engine st e (<[slot_of s := callback]> props)).
Proof.
  intros H Hnf Hr Ha Hs. split; unbind.
  - change (setOnResult b callback) with (register OnResult b callback).
    rewrite (register_built _ _ _ _ OnResult _ H). simpl slot_of. simpl stored.
    erewrite dispatch_built;
      [| exact (built_with_engine _ _ _ _ _ H) | by apply lookup_insert_eq].
    unbind. simpl call. rewrite Hr, Ha. unbind.
    destruct callback as [ | | ? | ? | ? | ? | f]; try reflexivity.
    by destruct (Hnf f).
  - rewrite (register_built _ _ _ _ s _ H).
    assert (Hst : stored s callback = callback) by by destruct s.
    rewrite Hst. unfold dispatch. unbind.
    rewrite (get_prop_built _ _ _ _ _ (built_with_engine _ _ _ _ _ H)).
    rewrite lookup_insert_eq. simpl.
    destruct callback as [ | | ? | ? | ? | ? | f]; try reflexivity.
    by destruct (Hnf f).
Qed.

(** X10: a run of result events, each with a first alternative in its first
    group, delivered after [setOnResult(cb)]: [cb] is called once per event,
    in the order of the events, each time with what that event says. *)
Theorem setOnResult_stream st b e props id events heard :
  built st b e props →
  Forall2 (λ event args, first_alternative event = Some args) events heard →
  (_ ← setOnResult b (VFun (Callback id)); deliver e "onresult" events) st =
  (Normal tt,
   with_trace
     (with_engine st e
        (<["onresult" := VFun (OnResultWrapper (VFun (Callback id)))]> props))
     (trace st ++ (Invoked id <$> heard))).
Proof.
  intros H Hall. unbind.
  change (setOnResult b (VFun (Callback id)))
    with (register OnResult b (VFun (Callback id))).
  rewrite (register_built _ _ _ _ OnResult _ H). simpl slot_of. simpl stored.
  erewrite installed_wrapper_stream;
    [done | exact (built_with_engine _ _ _ _ _ H)
     | by apply lookup_insert_eq | done].
Qed.

(** ** Several builders *)

Lemma SpeechToText_fresh h st :
  standard h = true ∨ prefixed h = true →
  ∃ this r,
    SpeechToText h st =
      (Normal this,
       {| heap := <[this := SpeechToTextObj (Some r)]>
                    (<[r := SpeechRecognitionObj (engine_defaults h)]>
                       (<[this := SpeechToTextObj None]> (heap st)));
          trace := trace st |}) ∧
    heap st !! this = None ∧ heap st !! r = None ∧ this ≠ r.
Proof.
  intros Hcap.
  assert (Hor : standard h || prefixed h = true).
  { destruct Hcap as [-> | ->]; [done | by rewrite orb_true_r]. }
  pose proof (fresh_unused st) as Hthis.
  pose proof (fresh_unused
    {| heap := <[fresh (dom (heap st)) := SpeechToTextObj None]> (heap st);
       trace := trace st |}) as Hr.
  simpl heap in Hr.
  set (this := fresh (dom (heap st))) in *.
  set (r := fresh (dom (<[this := SpeechToTextObj None]> (heap st)))) in *.
  assert (Hne : this ≠ r).
  { intros Heq. rewrite <- Heq, lookup_insert_eq in Hr. discriminate. }
  exists this, r. split; [| split; [done | split; [| done]]].
  - unfold SpeechToText. unbind. unfold alloc at 1. cbv zeta.
    rewrite window_constructor, Hor.
    change (negb (truthy (VFun SpeechRecognitionCtor))) with false.
    unfold js_new, alloc, set_recognition. cbv beta iota zeta.
    simpl heap. simpl trace.
    rewrite lookup_insert_ne by exact (not_eq_sym Hne).
    by rewrite lookup_insert_eq.
  - by rewrite lookup_insert_ne in Hr.
Qed.

(** X11: every [new SpeechToText()] gets an engine of its own.  A second
    builder made while a first one exists is a different object with a
    different engine, and whatever chain of calls is made on the second
    leaves the first builder and the properties of its engine as they
    were. *)
Theorem builders_are_independent h st b1 e1 props1 calls :
  built st b1 e1 props1 →
  standard h = true ∨ prefixed h = true →
  ∃ b2 e2 st2 st3,
    SpeechToText h st = (Normal b2, st2) ∧
    b2 ≠ b1 ∧ e2 ≠ e1 ∧
    built st2 b1 e1 props1 ∧
    built st2 b2 e2 (engine_defaults h) ∧
    chain calls b2 st2 = (Normal b2, st3) ∧
    built st3 b2 e2 (writes calls (engine_defaults h)) ∧
    built st3 b1 e1 props1.
Proof.
  intros H1 Hcap.
  destruct (SpeechToText_fresh h st Hcap) as (b2 & e2 & Hnew & Hb2 & He2 & Hne).
  destruct H1 as [Hb1 He1].
  assert (b2 ≠ b1) by congruence. assert (e2 ≠ b1) by congruence.
  assert (b2 ≠ e1) by congruence. assert (e2 ≠ e1) by congruence.
  set (st2 := {| heap := <[b2 := SpeechToTextObj (Some e2)]>
                   (<[e2 := SpeechRecognitionObj (engine_defaults h)]>
                      (<[b2 := SpeechToTextObj None]> (heap st)));
                 trace := trace st |}) in *.
  assert (H1' : built st2 b1 e1 props1).
  { split; simpl; by rewrite !lookup_insert_ne. }
  assert (H2' : built st2 b2 e2 (engine_defaults h)).
  { split; simpl.
    - apply lookup_insert_eq.
    - rewrite lookup_insert_ne by done. apply lookup_insert_eq. }
  eexists b2, e2, st2, _. split; [exact Hnew |].
  split; [done |]. split; [done |]. split; [done |]. split; [done |].
  split; [exact (chain_built _ _ _ _ _ H2') |]. split.
  - apply built_with_trace. exact (built_with_engine _ _ _ _ _ H2').
  - apply built_with_trace. destruct H1' as [Hb1' He1'].
    split; simpl; by rewrite lookup_insert_ne.
Qed.

(** ** The chain of the class documentation, and other examples *)

Lemma chain_effect_documented :
  built chrome_state 1 2 (engine_defaults chrome) ∧
  (chain documented_chain 1 chrome_state).1 = Normal 1%positive ∧
  trace (chain documented_chain 1 chrome_state).2 = [EngineStart 2].
Proof.
  split; [chrome_built |].
  destruct (chain_effect chrome_state 1 2 (engine_defaults chrome)
              documented_chain) as (-> & _); [chrome_built |].
  by split.
Defined.

Lemma accessors_after_chain_documented :
  built chrome_state 1 2 (engine_defaults chrome) ∧
  ((_ ← chain documented_chain 1; maxAlternatives 1) chrome_state).1 =
    Normal (VNum 5) ∧
  ((_ ← chain [(Configure Language, VStr "fr-FR")] 1; maxAlternatives 1)
     chrome_state).1 = Normal (VNum 1).
Proof.
  split; [chrome_built |]. split.
  - destruct (accessors_after_chain chrome_state 1 2 (engine_defaults chrome)
                documented_chain) as [-> _]; [chrome_built |].
    reflexivity.
  - destruct (accessors_after_chain chrome_state 1 2 (engine_defaults chrome)
                [(Configure Language, VStr "fr-FR")]) as [-> _];
      [chrome_built |].
    reflexivity.
Defined.

Lemma independent_calls_commute_start :
  built chrome_state 1 2 (engine_defaults chrome) ∧
  independent (Register OnEnd) StartRecognition ∧
  chain [(Register OnEnd, VFun (Callback 3)); (StartRecognition, VUndefined)]
        1 chrome_state =
  chain [(StartRecognition, VUndefined); (Register OnEnd, VFun (Callback 3))]
        1 chrome_state.
Proof.
  split; [chrome_built |]. split; [exact I |].
  apply (independent_calls_commute chrome_state 1 2 (engine_defaults chrome));
    [chrome_built | exact I].
Defined.

Lemma later_call_overwrites_language :
  built chrome_state 1 2 (engine_defaults chrome) ∧
  target (Configure Language) = Some "lang" ∧
  chain [(Configure Language, VStr "en-US"); (Configure Language, VStr "fr-FR")]
        1 chrome_state =
  chain [(Configure Language, VStr "fr-FR")] 1 chrome_state.
Proof.
  split; [chrome_built |]. split; [reflexivity |].
  apply (later_call_overwrites chrome_state 1 2 (engine_defaults chrome)
           _ _ _ _ "lang"); [chrome_built | reflexivity | reflexivity].
Defined.

Lemma chain_keeps_other_slots_onend :
  built chrome_state 1 2 (engine_defaults chrome) ∧
  last_set "onend" documented_chain = None ∧
  ∃ o evs,
    dispatch 2 "onend" [] chrome_state =
      (o, with_trace chrome_state (trace chrome_state ++ evs)) ∧
    dispatch 2 "onend" [] (chain documented_chain 1 chrome_state).2 =
      (o, with_trace (chain documented_chain 1 chrome_state).2
            (trace (chain documented_chain 1 chrome_state).2 ++ evs)).
Proof.
  split; [chrome_built |]. split; [reflexivity |].
  apply (chain_keeps_other_slots chrome_state 1 2 (engine_defaults chrome));
    [chrome_built | reflexivity].
Defined.

Lemma audiostart_event_dropped_example :
  built chrome_state 1 2 (engine_defaults chrome) ∧
  engine_defaults chrome !! "onaudiostart" = None ∧
  ((_ ← chain [(Register OnAudioStart, VFun (Callback 4))] 1;
    dispatch 2 "onaudiostart" [VEvent (PlainEvent "audiostart")])
     chrome_state).1 = Normal tt ∧
  trace ((_ ← chain [(Register OnAudioStart, VFun (Callback 4))] 1;
          dispatch 2 "onaudiostart" [VEvent (PlainEvent "audiostart")])
           chrome_state).2 = [].
Proof.
  split; [chrome_built |]. split; [reflexivity |].
  rewrite (audiostart_event_dropped chrome_state 1 2 (engine_defaults chrome));
    [by split | chrome_built | reflexivity].
Defined.

Lemma wrapper_reads_first_only_example :
  built chrome_state 1 2 (engine_defaults chrome) ∧
  trace ((_ ← setOnResult 1 (VFun (Callback 7));
          dispatch 2 "onresult"
            [VEvent (SpeechRecognitionEvent
               [ {| alternatives := [ {| transcript := "hello" |};
                                      {| transcript := "hallo" |} ];
                    isFinal := true |};
                 {| alternatives := [ {| transcript := "world" |} ];
                    isFinal := false |} ])]) chrome_state).2 =
  [Invoked 7 [VStr "hello"; VBool true]].
Proof.
  split; [chrome_built |].
  rewrite (wrapper_reads_first_only chrome_state 1 2 (engine_defaults chrome) 7
             {| alternatives := [ {| transcript := "hello" |};
                                  {| transcript := "hallo" |} ];
                isFinal := true |}
             [ {| alternatives := [ {| transcript := "world" |} ];
                  isFinal := false |} ]
             {| transcript := "hello" |} [ {| transcript := "hallo" |} ] []);
    [reflexivity | chrome_built | reflexivity].
Defined.

Lemma wrapper_needs_result_event_end :
  built chrome_state 1 2 (engine_defaults chrome) ∧
  ∃ expr,
    ((_ ← setOnResult 1 (VFun (Callback 7));
      dispatch 2 "onresult" [VEvent (PlainEvent "end")]) chrome_state).1 =
    Throw (TypeError expr).
Proof.
  split; [chrome_built |].
  destruct (wrapper_needs_result_event chrome_state 1 2 (engine_defaults chrome)
              (VFun (Callback 7)) [VEvent (PlainEvent "end")])
    as (expr & Heq & _); [chrome_built | discriminate |].
  exists expr. by rewrite Heq.
Defined.

Lemma callbacks_are_not_checked_null :
  built chrome_state 1 2 (engine_defaults chrome) ∧
  OnEnd ≠ OnResult ∧
  ((_ ← setOnResult 1 VNull; dispatch 2 "onresult" [VEvent hello])
     chrome_state).1 = Throw (TypeError "callback()") ∧
  ((_ ← register OnEnd 1 VNull; dispatch 2 "onend" []) chrome_state).1 =
    Normal tt.
Proof.
  split; [chrome_built |]. split; [discriminate |].
  destruct (callbacks_are_not_checked chrome_state 1 2 (engine_defaults chrome)
              VNull OnEnd []
              [ {| alternatives := [ {| transcript := "hello" |} ];
                   isFinal := false |} ]
              {| alternatives := [ {| transcript := "hello" |} ];
                 isFinal := false |}
              {| transcript := "hello" |})
    as [Hres Hend];
    [chrome_built | discriminate | reflexivity | reflexivity | discriminate |].
  unfold hello. rewrite Hres. simpl slot_of in Hend. rewrite Hend. by split.
Defined.

Lemma setOnResult_stream_two :
  built chrome_state 1 2 (engine_defaults chrome) ∧
  trace ((_ ← setOnResult 1 (VFun (Callback 7));
          deliver 2 "onresult"
            [ hello;
              SpeechRecognitionEvent
                [ {| alternatives := [ {| transcript := "hello world" |} ];
                     isFinal := true |} ] ]) chrome_state).2 =
  [ Invoked 7 [VStr "hello"; VBool false];
    Invoked 7 [VStr "hello world"; VBool true] ].
Proof.
  split; [chrome_built |].
  rewrite (setOnResult_stream chrome_state 1 2 (engine_defaults chrome) 7 _
             [ [VStr "hello"; VBool false]; [VStr "hello world"; VBool true] ]);
    [reflexivity | chrome_built |].
  repeat constructor.
Defined.

Lemma builders_are_independent_example :
  built chrome_state 1 2 (engine_defaults chrome) ∧
  (standard chrome = true ∨ prefixed chrome = true) ∧
  ∃ b2 st2 st3,
    SpeechToText chrome chrome_state = (Normal b2, st2) ∧
    chain documented_chain b2 st2 = (Normal b2, st3) ∧
    built st3 1 2 (engine_defaults chrome).
Proof.
  split; [chrome_built |]. split; [by right |].
  destruct (builders_are_independent chrome chrome_state 1 2
              (engine_defaults chrome) documented_chain)
    as (b2 & e2 & st2 & st3 & Hnew & _ & _ & _ & _ & Hchain & _ & Hfirst);
    [chrome_built | by right |].
  by exists b2, st2, st3.
Defined.
